(** * gcs: a bucket facade over a remote object store

    Shallow embedding of [gcs/requests.go] (the request and result value
    types) and [gcs/bucket.go] (the bucket facade, which delegates to the
    [storage] package), followed by the properties of listings, of
    metadata updates and of name validation.

    Go strings are byte strings: they are [string] here (a list of 8-bit
    [ascii]), compared bytewise as Go's [<] does.  [int64] and [int] are
    [Z]: the source does no arithmetic on them.  A Go pointer that may be nil
    is an [option]; a Go map is a [gmap]. *)

From Stdlib Require OrderedTypeEx.
From Stdlib Require Import Ascii String.
From stdpp Require Import gmap strings list.

Local Open Scope string_scope.
Local Open Scope Z_scope.

(* ===================================================================== *)
(** * requests.go *)
(* ===================================================================== *)

(** Modelled from the spec: the [Object] record type that [Listing.Objects]
    points to is not declared in the source.  The data model gives it a name,
    a generation, four optional string attributes and string-keyed user
    metadata; an attribute that is not set is [None]. *)
Module Object.
Record t := {
  Name : string;
  Generation : Z;
  ContentType : option string;
  ContentLanguage : option string;
  ContentEncoding : option string;
  CacheControl : option string;
  Metadata : gmap string string;
}.
End Object.

Module CreateObjectRequest.
Record t := {
  Name : string;
  ContentType : string;
  ContentLanguage : string;
  ContentEncoding : string;
  CacheControl : string;
  Metadata : gmap string string;
  (* io.Reader: the bytes it yields *)
  Contents : list ascii;
  (* *int64 *)
  GenerationPrecondition : option Z;
}.
End CreateObjectRequest.

Module ReadObjectRequest.
Record t := {
  Name : string;
  Generation : Z;
}.
End ReadObjectRequest.

Module StatObjectRequest.
Record t := {
  Name : string;
}.
End StatObjectRequest.

Module ListObjectsRequest.
Record t := {
  Prefix : string;
  Delimiter : string;
  ContinuationToken : string;
  MaxResults : Z;
}.
End ListObjectsRequest.

Module Listing.
Record t := {
  Objects : list Object.t;
  CollapsedRuns : list string;
  ContinuationToken : string;
}.
End Listing.

Module UpdateObjectRequest.
Record t := {
  Name : string;
  (* *string: nil, pointer to the empty string, pointer to a value *)
  ContentType : option string;
  ContentEncoding : option string;
  ContentLanguage : option string;
  CacheControl : option string;
  (* map[string]*string *)
  Metadata : gmap string (option string);
}.
End UpdateObjectRequest.

(** Modelled from the spec: Go's [error] values come from the [storage]
    package, which is not in the source; the spec's error taxonomy names
    them. *)
Inductive Error :=
  | InvalidArgument
  | PreconditionFailed
  | InvalidUpdate
  | CorruptListing
  | NotFound
  | Cancelled
  | DeadlineExceeded
  | TransientStoreError
  | Unauthorized.

#[global] Instance Error_eq_dec : EqDecision Error.
Proof. solve_decision. Defined.

(* ===================================================================== *)
(** * Orders on names, objects and pages *)
(* ===================================================================== *)

(** Go's [<] on strings: bytewise lexicographic. *)
Definition name_lt (a b : string) : bool := String.ltb a b.

(** Lexicographic comparison on (name, generation) pairs. *)
Definition object_lt (a b : Object.t) : bool :=
  match String.compare (Object.Name a) (Object.Name b) with
  | Lt => true
  | Eq => Object.Generation a <? Object.Generation b
  | Gt => false
  end.

(** A sequence is strictly increasing when each element is below its
    successor. *)
Fixpoint increasing {A : Type} (lt : A -> A -> bool) (l : list A) : bool :=
  match l with
  | x :: (y :: _) as rest => lt x y && increasing lt rest
  | _ => true
  end.

Definition page_sorted (R : Listing.t) : bool :=
  increasing object_lt (Listing.Objects R)
  && increasing name_lt (Listing.CollapsedRuns R).

(** The names a page mentions: its object names and its collapsed runs. *)
Definition page_names (R : Listing.t) : list string :=
  map Object.Name (Listing.Objects R) ++ Listing.CollapsedRuns R.

Definition page_empty (R : Listing.t) : bool :=
  match page_names R with [] => true | _ => false end.

(** The guarantee documented on [Listing.ContinuationToken] for replies R1
    and R2 with R2 continuing from R1: every object name and every collapsed
    run of R1 is strictly less than every object name and every collapsed
    run of R2. *)
Definition cross_page (R1 R2 : Listing.t) : bool :=
  forallb (fun x => forallb (name_lt x) (page_names R2)) (page_names R1).

(** Adjacent members of a sequence of pages. *)
Fixpoint adjacent_pages (Rs : list Listing.t) : bool :=
  match Rs with
  | R1 :: (R2 :: _) as rest => cross_page R1 R2 && adjacent_pages rest
  | _ => true
  end.

(** Every page of the sequence but the first and the last holds at least one
    object or collapsed run. *)
Definition interior_nonempty (Rs : list Listing.t) : bool :=
  forallb (fun R => negb (page_empty R)) (removelast (tail Rs)).

Definition all_objects (Rs : list Listing.t) : list Object.t :=
  concat (map Listing.Objects Rs).

Definition all_runs (Rs : list Listing.t) : list string :=
  concat (map Listing.CollapsedRuns Rs).

(* ===================================================================== *)
(** * bucket.go *)
(* ===================================================================== *)

(** Modelled from the spec: [storage.ObjectAttrs] is a type of the [storage]
    package, which is not in the source; the remote write takes the object's
    name and the metadata attributes of the data model. *)
Module ObjectAttrs.
Record t := {
  Name : string;
  ContentType : string;
  ContentLanguage : string;
  ContentEncoding : string;
  CacheControl : string;
  Metadata : gmap string string;
}.
End ObjectAttrs.

(** [storage.Writer] and the [objectWriter] that wraps it. *)
Record storage_Writer := { ObjectAttrs : ObjectAttrs.t }.
Record objectWriter := { wrapped : storage_Writer }.

(** A Go call either returns or panics (a nil pointer dereference). *)
Inductive outcome (A : Type) :=
  | Returned (a : A)
  | Panicked.
Arguments Returned {A} a.
Arguments Panicked {A}.

Section Facade.
(** [context.Context] and [http.Client] are opaque to the facade; [World]
    is whatever the remote store holds and may change on every call. *)
Variables Ctx http_Client World : Type.

(** [io.ReadCloser]: the bytes the reader yields. *)
Definition ReadCloser : Type := list ascii.

(** The context [cloud.WithContext] builds: the caller's context bound to
    the project and the HTTP client.  [cloud.WithContext] is library code that
    is not in the source; it is taken where it returns, for a bucket whose
    project and client are set and a caller's context that is not nil. *)
Record AuthContext := {
  parent : Ctx;
  auth_projID : string;
  auth_client : http_Client;
}.

Definition cloud_WithContext (ctx : Ctx) (projID : string)
    (client : http_Client) : AuthContext :=
  {| parent := ctx; auth_projID := projID; auth_client := client |}.

(** Modelled from the spec: the [storage] package is the remote-store
    collaborator and is not in the source.  Its [Query] and [Objects] types
    carry what the spec's RemoteList takes and returns, the fields of
    [ListObjectsRequest] and of [Listing].  A Go result pair
    [(value, error)] is a pair of options. *)
Record Storage := {
  storage_ListObjects :
    AuthContext -> string -> option ListObjectsRequest.t -> World ->
    (option Listing.t * option Error) * World;
  storage_NewReader :
    AuthContext -> string -> string -> World ->
    (option ReadCloser * option Error) * World;
}.

(** What the collaborator observes: one entry per call made to it. *)
Inductive Call :=
  | CallListObjects (a : AuthContext) (bucketName : string)
      (query : option ListObjectsRequest.t)
  | CallNewReader (a : AuthContext) (bucketName objectName : string).

Record State := {
  world : World;
  calls : list Call;
}.

Record bucket := {
  projID : string;
  client : http_Client;
  name : string;
}.

Variable storage : Storage.

Definition Name (b : bucket) : string := name b.

Definition ListObjects (b : bucket) (ctx : Ctx)
    (query : option ListObjectsRequest.t) (s : State)
    : (option Listing.t * option Error) * State :=
  let authContext := cloud_WithContext ctx (projID b) (client b) in
  let '(r, w) := storage_ListObjects storage authContext (name b) query (world s) in
  (r, {| world := w;
         calls := calls s ++ [CallListObjects authContext (name b) query] |}).

Definition NewReader (b : bucket) (ctx : Ctx) (objectName : string)
    (s : State) : (option ReadCloser * option Error) * State :=
  let authContext := cloud_WithContext ctx (projID b) (client b) in
  let '(r, w) := storage_NewReader storage authContext (name b) objectName (world s) in
  (r, {| world := w;
         calls := calls s ++ [CallNewReader authContext (name b) objectName] |}).

(** [*attrs] dereferences the argument: a nil [attrs] panics. *)
Definition NewWriter (b : bucket) (ctx : Ctx)
    (attrs : option ObjectAttrs.t) (s : State)
    : outcome (option objectWriter * option Error) * State :=
  match attrs with
  | None => (Panicked, s)
  | Some a =>
      let w := {| wrapped := {| ObjectAttrs := a |} |} in
      (Returned (Some w, None), s)
  end.

(** ** Following continuation tokens

    The caller's side of the continuation protocol documented on
    [Listing.ContinuationToken]: call [ListObjects] again with the request's
    [ContinuationToken] set to the token of the previous listing, until a
    listing carries the empty token.  A call that returns an error ends the
    sequence. *)
Definition continue (q : ListObjectsRequest.t) (token : string)
    : ListObjectsRequest.t :=
  {| ListObjectsRequest.Prefix := ListObjectsRequest.Prefix q;
     ListObjectsRequest.Delimiter := ListObjectsRequest.Delimiter q;
     ListObjectsRequest.ContinuationToken := token;
     ListObjectsRequest.MaxResults := ListObjectsRequest.MaxResults q |}.

Fixpoint follow (fuel : nat) (b : bucket) (ctx : Ctx)
    (q : ListObjectsRequest.t) (s : State) : list Listing.t * State :=
  match fuel with
  | O => ([], s)
  | S fuel' =>
      match ListObjects b ctx (Some q) s with
      | ((Some R, None), s') =>
          if decide (Listing.ContinuationToken R = "")
          then ([R], s')
          else
            let '(Rs, s'') :=
              follow fuel' b ctx (continue q (Listing.ContinuationToken R)) s' in
            (R :: Rs, s'')
      | (_, s') => ([], s')
      end
  end.

(** The store returns page [R] for the request [q] in some world. *)
Definition returns_page (a : AuthContext) (n : string)
    (q : ListObjectsRequest.t) (R : Listing.t) : Prop :=
  exists w w', storage_ListObjects storage a n (Some q) w = ((Some R, None), w').

(** The listing contract the remote store must honour: every page strictly
    increasing, and every page below the page that continues from it. *)
Record store_contract : Prop := {
  contract_sorted : forall a n q R,
    returns_page a n q R -> page_sorted R = true;
  contract_cross : forall a n q R1 R2,
    returns_page a n q R1 ->
    Listing.ContinuationToken R1 <> "" ->
    returns_page a n (continue q (Listing.ContinuationToken R1)) R2 ->
    cross_page R1 R2 = true;
}.
End Facade.

Arguments storage_ListObjects {Ctx http_Client World}.
Arguments storage_NewReader {Ctx http_Client World}.
Arguments ListObjects {Ctx http_Client World}.
Arguments NewReader {Ctx http_Client World}.
Arguments NewWriter {Ctx http_Client World}.
Arguments follow {Ctx http_Client World}.
Arguments store_contract {Ctx http_Client World}.
Arguments returns_page {Ctx http_Client World}.
Arguments world {Ctx http_Client World}.
Arguments calls {Ctx http_Client World}.
Arguments CallListObjects {Ctx http_Client}.
Arguments CallNewReader {Ctx http_Client}.
Arguments cloud_WithContext {Ctx http_Client}.
Arguments name {http_Client}.
Arguments projID {http_Client}.
Arguments client {http_Client}.


(* ===================================================================== *)
(** * The metadata patch resolver *)
(* ===================================================================== *)

(** The four scalar attributes an update can touch. *)
Inductive Field :=
  | FContentType
  | FContentEncoding
  | FContentLanguage
  | FCacheControl.

#[global] Instance Field_eq_dec : EqDecision Field.
Proof. solve_decision. Defined.

Inductive Mutation :=
  | SetField (f : Field) (v : string)
  | DeleteField (f : Field)
  | SetKey (k v : string)
  | DeleteKey (k : string).

(** The tri-state rule for one scalar attribute, as documented on
    [UpdateObjectRequest]: nil leaves the field untouched, a pointer to the
    empty string removes it, any other value sets it. *)
Definition resolve_field (f : Field) (v : option string) : list Mutation :=
  match v with
  | None => []
  | Some "" => [DeleteField f]
  | Some x => [SetField f x]
  end.

(** The rule for user metadata: a key whose value is nil is deleted, any
    other key is set to the supplied string; the keys are visited in the
    order the map yields them. *)
Definition resolve_key (kv : string * option string) : Mutation :=
  match kv.2 with
  | None => DeleteKey kv.1
  | Some x => SetKey kv.1 x
  end.

Definition resolve_metadata (m : gmap string (option string)) : list Mutation :=
  map resolve_key (map_to_list m).

(** Modelled from the spec: the resolver that turns an [UpdateObjectRequest]
    into mutations is not in the source (only the request type and the
    documentation of its fields are).  The spec makes it a pure transform from
    a request to a mutation list that fails with [InvalidUpdate], emitting
    nothing, when the content type is to be deleted. *)
Definition resolve (req : UpdateObjectRequest.t) : Error + list Mutation :=
  if decide (UpdateObjectRequest.ContentType req = Some "") then inl InvalidUpdate
  else
    inr (resolve_field FContentType (UpdateObjectRequest.ContentType req)
         ++ resolve_field FContentEncoding (UpdateObjectRequest.ContentEncoding req)
         ++ resolve_field FContentLanguage (UpdateObjectRequest.ContentLanguage req)
         ++ resolve_field FCacheControl (UpdateObjectRequest.CacheControl req)
         ++ resolve_metadata (UpdateObjectRequest.Metadata req))%list.

Definition get_field (f : Field) (o : Object.t) : option string :=
  match f with
  | FContentType => Object.ContentType o
  | FContentEncoding => Object.ContentEncoding o
  | FContentLanguage => Object.ContentLanguage o
  | FCacheControl => Object.CacheControl o
  end.

Definition put_field (f : Field) (v : option string) (o : Object.t) : Object.t :=
  {| Object.Name := Object.Name o;
     Object.Generation := Object.Generation o;
     Object.ContentType :=
       if decide (f = FContentType) then v else Object.ContentType o;
     Object.ContentLanguage :=
       if decide (f = FContentLanguage) then v else Object.ContentLanguage o;
     Object.ContentEncoding :=
       if decide (f = FContentEncoding) then v else Object.ContentEncoding o;
     Object.CacheControl :=
       if decide (f = FCacheControl) then v else Object.CacheControl o;
     Object.Metadata := Object.Metadata o |}.

Definition put_metadata (m : gmap string string) (o : Object.t) : Object.t :=
  {| Object.Name := Object.Name o;
     Object.Generation := Object.Generation o;
     Object.ContentType := Object.ContentType o;
     Object.ContentLanguage := Object.ContentLanguage o;
     Object.ContentEncoding := Object.ContentEncoding o;
     Object.CacheControl := Object.CacheControl o;
     Object.Metadata := m |}.

(** Modelled from the spec: what one mutation does to an Object Record. *)
Definition apply_mutation (o : Object.t) (m : Mutation) : Object.t :=
  match m with
  | SetField f v => put_field f (Some v) o
  | DeleteField f => put_field f None o
  | SetKey k v => put_metadata (<[k := v]> (Object.Metadata o)) o
  | DeleteKey k => put_metadata (delete k (Object.Metadata o)) o
  end.

Definition apply_mutations (ms : list Mutation) (o : Object.t) : Object.t :=
  fold_left apply_mutation ms o.

(** The Object Record after an update: the resolved mutations applied in
    order, or the record as it was when the resolver fails. *)
Definition update_state (req : UpdateObjectRequest.t) (o : Object.t) : Object.t :=
  match resolve req with
  | inr ms => apply_mutations ms o
  | inl _ => o
  end.

(** The last value a mutation list gives a scalar attribute, if it touches
    it at all. *)
Definition field_write (f : Field) (m : Mutation) : option (option string) :=
  match m with
  | SetField g v => if decide (g = f) then Some (Some v) else None
  | DeleteField g => if decide (g = f) then Some None else None
  | _ => None
  end.

Definition key_write (k : string) (m : Mutation) : option (option string) :=
  match m with
  | SetKey j v => if decide (j = k) then Some (Some v) else None
  | DeleteKey j => if decide (j = k) then Some None else None
  | _ => None
  end.

Fixpoint last_write (w : Mutation -> option (option string)) (ms : list Mutation)
    : option (option string) :=
  match ms with
  | [] => None
  | m :: ms' =>
      match last_write w ms' with
      | Some v => Some v
      | None => w m
      end
  end.

(* ===================================================================== *)
(** * Object names *)
(* ===================================================================== *)

Definition LF : ascii := ascii_of_nat 10.
Definition CR : ascii := ascii_of_nat 13.

Fixpoint contains (c : ascii) (s : string) : bool :=
  match s with
  | EmptyString => false
  | String d s' => Ascii.eqb c d || contains c s'
  end.

Definition byte_in (lo hi : N) (c : ascii) : bool :=
  ((lo <=? N_of_ascii c) && (N_of_ascii c <=? hi))%N.

Definition continuation_byte : ascii -> bool := byte_in 128 191.

(** Well-formed UTF-8, by the byte ranges of the encoding (no overlong
    forms, no surrogates, nothing above U+10FFFF). *)
Fixpoint valid_utf8 (s : string) : bool :=
  match s with
  | EmptyString => true
  | String c0 r0 =>
      if byte_in 0 127 c0 then valid_utf8 r0
      else
        match r0 with
        | EmptyString => false
        | String c1 r1 =>
            if byte_in 194 223 c0 then continuation_byte c1 && valid_utf8 r1
            else
              match r1 with
              | EmptyString => false
              | String c2 r2 =>
                  if byte_in 224 224 c0 then
                    byte_in 160 191 c1 && continuation_byte c2 && valid_utf8 r2
                  else if byte_in 225 236 c0 || byte_in 238 239 c0 then
                    continuation_byte c1 && continuation_byte c2 && valid_utf8 r2
                  else if byte_in 237 237 c0 then
                    byte_in 128 159 c1 && continuation_byte c2 && valid_utf8 r2
                  else
                    match r2 with
                    | EmptyString => false
                    | String c3 r3 =>
                        if byte_in 240 240 c0 then
                          byte_in 144 191 c1 && continuation_byte c2
                          && continuation_byte c3 && valid_utf8 r3
                        else if byte_in 241 243 c0 then
                          continuation_byte c1 && continuation_byte c2
                          && continuation_byte c3 && valid_utf8 r3
                        else if byte_in 244 244 c0 then
                          byte_in 128 143 c1 && continuation_byte c2
                          && continuation_byte c3 && valid_utf8 r3
                        else false
                    end
              end
        end
  end.

(** The names the spec has the facade reject: empty, longer than 1024 bytes,
    or containing U+000A or U+000D. *)
Definition name_rejected (objectName : string) : bool :=
  bool_decide (objectName = "")
  || (1024 <? String.length objectName)%nat
  || contains LF objectName
  || contains CR objectName.

(** The object naming constraint documented on [CreateObjectRequest.Name]. *)
Definition validate_name (objectName : string) : bool :=
  negb (name_rejected objectName) && valid_utf8 objectName.

(* ===================================================================== *)
(** * Conditional writes *)
(* ===================================================================== *)

(** Modelled from the spec: the remote store's side of a write.  The bucket
    holds at most one current Object Record per name and hands out
    generations from a counter. *)
Record RemoteBucket := {
  contents : gmap string Object.t;
  next_generation : Z;
}.

(** What the collaborator is asked to do by [CreateObject]. *)
Record WriteState := {
  remote : RemoteBucket;
  writes : list CreateObjectRequest.t;
}.

(** The data-model invariant on the records a bucket holds: each is filed
    under a name that satisfies the naming constraint. *)
Definition bucket_wf (rb : RemoteBucket) : Prop :=
  forall k o, contents rb !! k = Some o -> validate_name k = true.

(** Modelled from the spec: a write succeeds only if the object's current
    generation equals the precondition; a precondition of zero means that
    the object must not currently exist. *)
Definition precondition_holds (p : option Z) (current : option Object.t) : bool :=
  match p with
  | None => true
  | Some g =>
      if g =? 0 then
        match current with None => true | Some _ => false end
      else
        match current with
        | None => false
        | Some o => Object.Generation o =? g
        end
  end.

Definition attribute (v : string) : option string :=
  if decide (v = "") then None else Some v.

Definition created_object (req : CreateObjectRequest.t) (generation : Z) : Object.t :=
  {| Object.Name := CreateObjectRequest.Name req;
     Object.Generation := generation;
     Object.ContentType := attribute (CreateObjectRequest.ContentType req);
     Object.ContentLanguage := attribute (CreateObjectRequest.ContentLanguage req);
     Object.ContentEncoding := attribute (CreateObjectRequest.ContentEncoding req);
     Object.CacheControl := attribute (CreateObjectRequest.CacheControl req);
     Object.Metadata := CreateObjectRequest.Metadata req |}.

(** Modelled from the spec: RemoteWrite, the store's conditional write; a
    precondition mismatch surfaces as [PreconditionFailed] and leaves the
    bucket as it was. *)
Definition RemoteWrite (req : CreateObjectRequest.t) (rb : RemoteBucket)
    : (Error + Object.t) * RemoteBucket :=
  if precondition_holds (CreateObjectRequest.GenerationPrecondition req)
       (contents rb !! CreateObjectRequest.Name req)
  then
    let o := created_object req (next_generation rb) in
    (inr o, {| contents := <[CreateObjectRequest.Name req := o]> (contents rb);
               next_generation := next_generation rb + 1 |})
  else (inl PreconditionFailed, rb).

(** Modelled from the spec: [Bucket.CreateObject], which the source names on
    [CreateObjectRequest] but does not contain.  It validates the name before
    any store call and forwards the generation precondition to the store as a
    conditional-write parameter. *)
Definition CreateObject (req : CreateObjectRequest.t) (s : WriteState)
    : (Error + Object.t) * WriteState :=
  if validate_name (CreateObjectRequest.Name req) then
    let '(r, rb) := RemoteWrite req (remote s) in
    (r, {| remote := rb; writes := writes s ++ [req] |})
  else (inl InvalidArgument, s).

(** The ways a write can fail other than on its precondition. *)
Definition other_write_failures : list Error :=
  [InvalidArgument; NotFound; Cancelled; DeadlineExceeded;
   TransientStoreError; Unauthorized].

(* ===================================================================== *)
(** * Test doubles for the remote store *)
(* ===================================================================== *)

(** A store that serves a fixed script of pages, keyed by the continuation
    token of the request (a nil query asks for the first page), and has no
    object to read.  It keeps no state. *)
Fixpoint page_for (token : string) (script : list (string * Listing.t))
    : option Listing.t :=
  match script with
  | [] => None
  | (t, R) :: script' => if decide (t = token) then Some R else page_for token script'
  end.

Definition query_token (query : option ListObjectsRequest.t) : string :=
  match query with
  | None => ""
  | Some q => ListObjectsRequest.ContinuationToken q
  end.

Definition scripted (script : list (string * Listing.t)) : Storage unit unit unit :=
  {| storage_ListObjects := fun _ _ query w =>
       match page_for (query_token query) script with
       | Some R => ((Some R, None), w)
       | None => ((None, Some NotFound), w)
       end;
     storage_NewReader := fun _ _ _ w => ((None, Some NotFound), w) |}.

(** Whether a script honours the listing contract: each page strictly
    increasing, each page below the page its token leads to. *)
Definition script_honours (script : list (string * Listing.t)) : bool :=
  forallb (fun tR : string * Listing.t =>
    page_sorted tR.2
    && (bool_decide (Listing.ContinuationToken tR.2 = "")
        || match page_for (Listing.ContinuationToken tR.2) script with
           | Some R2 => cross_page tR.2 R2
           | None => true
           end)) script.

Definition object_named (n : string) (generation : Z) : Object.t :=
  {| Object.Name := n;
     Object.Generation := generation;
     Object.ContentType := None;
     Object.ContentLanguage := None;
     Object.ContentEncoding := None;
     Object.CacheControl := None;
     Object.Metadata := ∅ |}.

Definition page (objects : list Object.t) (runs : list string) (token : string)
    : Listing.t :=
  {| Listing.Objects := objects;
     Listing.CollapsedRuns := runs;
     Listing.ContinuationToken := token |}.

(** The spec's example: a/x, a/y/1, a/y/2, a/z listed under prefix a/ with
    delimiter / in two pages. *)
Definition example_script : list (string * Listing.t) :=
  [("", page [object_named "a/x" 1] ["a/y/"] "p2");
   ("p2", page [object_named "a/z" 1] [] "")].

(** A store whose second page is empty although more follows. *)
Definition gap_script : list (string * Listing.t) :=
  [("", page [object_named "b" 1] [] "t1");
   ("t1", page [] [] "t2");
   ("t2", page [object_named "a" 1] [] "")].

(** A store that returns its entries out of order. *)
Definition unsorted_script : list (string * Listing.t) :=
  [("", page [object_named "b" 1; object_named "a" 1] ["z/"; "y/"] "")].

(** A store that hands out a token with its last object; the page the token
    leads to is empty. *)
Definition trailing_script : list (string * Listing.t) :=
  [("", page [object_named "a" 1] [] "t");
   ("t", page [] [] "")].

Definition test_bucket : bucket unit :=
  {| projID := "proj"; client := tt; name := "bkt" |}.

Definition fresh : State unit unit unit := {| world := tt; calls := [] |}.

Definition list_request (prefix delimiter : string) (maxResults : Z)
    : ListObjectsRequest.t :=
  {| ListObjectsRequest.Prefix := prefix;
     ListObjectsRequest.Delimiter := delimiter;
     ListObjectsRequest.ContinuationToken := "";
     ListObjectsRequest.MaxResults := maxResults |}.

Definition attrs_named (n : string) : ObjectAttrs.t :=
  {| ObjectAttrs.Name := n;
     ObjectAttrs.ContentType := "";
     ObjectAttrs.ContentLanguage := "";
     ObjectAttrs.ContentEncoding := "";
     ObjectAttrs.CacheControl := "";
     ObjectAttrs.Metadata := ∅ |}.

(** Whether the continuation from listing [R] brings any further object or
    collapsed run. *)
Definition more_results {Ctx Client World : Type}
    (storage : Storage Ctx Client World) (fuel : nat) (b : bucket Client)
    (ctx : Ctx) (q : ListObjectsRequest.t) (R : Listing.t)
    (s : State Ctx Client World) : bool :=
  existsb (fun R' => negb (page_empty R'))
    (follow storage fuel b ctx (continue q (Listing.ContinuationToken R)) s).1.

(** ** Sample requests and buckets *)

Definition no_update (n : string) : UpdateObjectRequest.t :=
  {| UpdateObjectRequest.Name := n;
     UpdateObjectRequest.ContentType := None;
     UpdateObjectRequest.ContentEncoding := None;
     UpdateObjectRequest.ContentLanguage := None;
     UpdateObjectRequest.CacheControl := None;
     UpdateObjectRequest.Metadata := ∅ |}.

(** An update that asks for the content type to be removed and also sets
    other things. *)
Definition delete_content_type : UpdateObjectRequest.t :=
  {| UpdateObjectRequest.Name := "a";
     UpdateObjectRequest.ContentType := Some "";
     UpdateObjectRequest.ContentEncoding := Some "gzip";
     UpdateObjectRequest.ContentLanguage := None;
     UpdateObjectRequest.CacheControl := Some "";
     UpdateObjectRequest.Metadata := {[ "k" := Some "v"; "old" := None ]} |}.

Definition create_request (n : string) (precondition : option Z)
    : CreateObjectRequest.t :=
  {| CreateObjectRequest.Name := n;
     CreateObjectRequest.ContentType := "text/plain";
     CreateObjectRequest.ContentLanguage := "";
     CreateObjectRequest.ContentEncoding := "";
     CreateObjectRequest.CacheControl := "";
     CreateObjectRequest.Metadata := ∅;
     CreateObjectRequest.Contents := [];
     CreateObjectRequest.GenerationPrecondition := precondition |}.

(** A bucket that holds one object, named a, at generation 7. *)
Definition bucket_with_a : WriteState :=
  {| remote := {| contents := {[ "a" := object_named "a" 7 ]};
                  next_generation := 8 |};
     writes := [] |}.


(* ===================================================================== *)
(** * Sequences of calls on a bucket *)
(* ===================================================================== *)

(** The identity of an Object Record: its (name, generation) pair. *)
Definition identity (o : Object.t) : string * Z :=
  (Object.Name o, Object.Generation o).

Section Programs.
Variables Ctx http_Client World : Type.
Variable storage : Storage Ctx http_Client World.

(** One call of a method of [Bucket] that may block. *)
Inductive Op :=
  | OpListObjects (ctx : Ctx) (query : option ListObjectsRequest.t)
  | OpNewReader (ctx : Ctx) (objectName : string)
  | OpNewWriter (ctx : Ctx) (attrs : option ObjectAttrs.t).

(** A caller that makes the calls one after the other on the same bucket; a
    panic ends the run. *)
Definition step (b : bucket http_Client) (op : Op)
    (s : State Ctx http_Client World) : outcome (State Ctx http_Client World) :=
  match op with
  | OpListObjects ctx query => Returned (ListObjects storage b ctx query s).2
  | OpNewReader ctx objectName => Returned (NewReader storage b ctx objectName s).2
  | OpNewWriter ctx attrs =>
      match NewWriter b ctx attrs s with
      | (Returned _, s') => Returned s'
      | (Panicked, _) => Panicked
      end
  end.

Fixpoint run (b : bucket http_Client) (ops : list Op)
    (s : State Ctx http_Client World) : outcome (State Ctx http_Client World) :=
  match ops with
  | [] => Returned s
  | op :: ops' =>
      match step b op s with
      | Returned s' => run b ops' s'
      | Panicked => Panicked
      end
  end.

(** The call a method makes to the store, if it makes one. *)
Definition observed (b : bucket http_Client) (op : Op) : option (Call Ctx http_Client) :=
  match op with
  | OpListObjects ctx query =>
      Some (CallListObjects (cloud_WithContext ctx (projID b) (client b))
              (Name http_Client b) query)
  | OpNewReader ctx objectName =>
      Some (CallNewReader (cloud_WithContext ctx (projID b) (client b))
              (Name http_Client b) objectName)
  | OpNewWriter _ _ => None
  end.

End Programs.

Arguments OpListObjects {Ctx}.
Arguments OpNewReader {Ctx}.
Arguments OpNewWriter {Ctx}.
Arguments step {Ctx http_Client World}.
Arguments run {Ctx http_Client World}.
Arguments observed {Ctx http_Client}.

(** A program for the test doubles: list, open a reader, make a writer, list
    again. *)
Definition sample_program : list (Op unit) :=
  [OpListObjects tt (Some (list_request "a/" "/" 2));
   OpNewReader tt "a/x";
   OpNewWriter tt (Some (attrs_named "a/w"));
   OpListObjects tt None].

(** An update that sets, removes and leaves attributes and metadata keys. *)
Definition mixed_update : UpdateObjectRequest.t :=
  {| UpdateObjectRequest.Name := "a";
     UpdateObjectRequest.ContentType := Some "text/html";
     UpdateObjectRequest.ContentEncoding := Some "gzip";
     UpdateObjectRequest.ContentLanguage := None;
     UpdateObjectRequest.CacheControl := Some "";
     UpdateObjectRequest.Metadata := {[ "k" := Some "v"; "old" := None ]} |}.

(** The request's pointer for a scalar attribute. *)
Definition request_field (f : Field) (req : UpdateObjectRequest.t) : option string :=
  match f with
  | FContentType => UpdateObjectRequest.ContentType req
  | FContentEncoding => UpdateObjectRequest.ContentEncoding req
  | FContentLanguage => UpdateObjectRequest.ContentLanguage req
  | FCacheControl => UpdateObjectRequest.CacheControl req
  end.

(** A record with attributes and metadata for the sample updates. *)
Definition stored_a : Object.t :=
  {| Object.Name := "a";
     Object.Generation := 7;
     Object.ContentType := Some "text/plain";
     Object.ContentLanguage := Some "fr";
     Object.ContentEncoding := None;
     Object.CacheControl := Some "no-cache";
     Object.Metadata := {[ "old" := "1"; "keep" := "2" ]} |}.

(** A listing in three pages, the middle one not empty. *)
Definition three_page_script : list (string * Listing.t) :=
  [("", page [object_named "a/x" 1] ["a/y/"] "p2");
   ("p2", page [object_named "a/z" 1; object_named "a/z" 2] [] "p3");
   ("p3", page [object_named "b/1" 1] ["c/"] "")].

(** Whether a sequence of listings ends on a listing with the empty token. *)
Definition ends_on_final (Rs : list Listing.t) : bool :=
  match last Rs with
  | Some R => bool_decide (Listing.ContinuationToken R = "")
  | None => false
  end.

(** The number of [ListObjects] requests a continuation sequence of [fuel]
    steps at most takes to receive the listings [Rs]: one per listing, and
    one more, bound permitting, when the last listing still carries a
    token. *)
Definition requests_sent (fuel : nat) (Rs : list Listing.t) : nat :=
  Nat.min fuel (length Rs + (if ends_on_final Rs then 0 else 1)).

(* ===================================================================== *)
(** * Facts about the orders *)
(* ===================================================================== *)

Lemma name_lt_spec (a b : string) :
  name_lt a b = true <-> OrderedTypeEx.String_as_OT.lt a b.
Proof.
  unfold name_lt, String.ltb.
  rewrite <- OrderedTypeEx.String_as_OT.cmp_lt.
  unfold OrderedTypeEx.String_as_OT.cmp.
  destruct (String.compare a b); split; congruence.
Qed.

Lemma name_lt_trans (a b c : string) :
  name_lt a b = true -> name_lt b c = true -> name_lt a c = true.
Proof.
  rewrite !name_lt_spec. apply OrderedTypeEx.String_as_OT.lt_trans.
Qed.

Lemma name_lt_object_lt (a b : Object.t) :
  name_lt (Object.Name a) (Object.Name b) = true -> object_lt a b = true.
Proof.
  unfold name_lt, String.ltb, object_lt.
  destruct (String.compare _ _); congruence.
Qed.

Lemma increasing_cons {A : Type} (lt : A -> A -> bool) (x : A) (l : list A) :
  increasing lt (x :: l) = true ->
  increasing lt l = true.
Proof.
  destruct l as [|y l]; [reflexivity|].
  simpl. intros H. apply andb_prop in H. tauto.
Qed.

(** Two increasing sequences, the first wholly below the second, append to
    an increasing sequence. *)
Lemma increasing_app {A : Type} (lt : A -> A -> bool) (l1 l2 : list A) :
  increasing lt l1 = true ->
  increasing lt l2 = true ->
  (forall x y, In x l1 -> In y l2 -> lt x y = true) ->
  increasing lt (l1 ++ l2) = true.
Proof.
  induction l1 as [|x l1 IH]; intros H1 H2 Hlt; [exact H2|].
  destruct l1 as [|x' l1].
  - destruct l2 as [|y l2]; [reflexivity|].
    change (lt x y && increasing lt (y :: l2) = true).
    rewrite H2, (Hlt x y); simpl; auto.
  - change (lt x x' && increasing lt ((x' :: l1) ++ l2) = true).
    simpl in H1. apply andb_prop in H1 as [Hx H1].
    rewrite Hx. simpl. apply IH; [exact H1 | exact H2 |].
    intros a b Ha Hb. apply Hlt; [right; exact Ha | exact Hb].
Qed.

(** Increasing blocks, each wholly below every later block, concatenate to
    an increasing sequence. *)
Lemma increasing_concat {A : Type} (lt : A -> A -> bool) (ls : list (list A)) :
  Forall (fun l => increasing lt l = true) ls ->
  ForallOrdPairs (fun l1 l2 => forall x y, In x l1 -> In y l2 -> lt x y = true) ls ->
  increasing lt (concat ls) = true.
Proof.
  induction 1 as [|l ls Hl Hls IH]; intros Hp; [reflexivity|].
  inversion Hp as [|? ? Hhead Htail]; subst. simpl.
  apply increasing_app; [exact Hl | apply IH; exact Htail |].
  intros x y Hx Hy. apply in_concat in Hy as [l' [Hl' Hy]].
  rewrite List.Forall_forall in Hhead. exact (Hhead l' Hl' x y Hx Hy).
Qed.

Lemma cross_page_spec (R1 R2 : Listing.t) :
  cross_page R1 R2 = true <->
  forall x y, In x (page_names R1) -> In y (page_names R2) -> name_lt x y = true.
Proof.
  unfold cross_page. rewrite forallb_forall. split.
  - intros H x y Hx Hy. specialize (H x Hx).
    rewrite forallb_forall in H. exact (H y Hy).
  - intros H x Hx. rewrite forallb_forall. intros y Hy. exact (H x y Hx Hy).
Qed.

(** The cross-page guarantee passes through a page that is not empty. *)
Lemma cross_page_trans (R1 R2 R3 : Listing.t) :
  cross_page R1 R2 = true ->
  page_empty R2 = false ->
  cross_page R2 R3 = true ->
  cross_page R1 R3 = true.
Proof.
  rewrite !cross_page_spec. unfold page_empty.
  destruct (page_names R2) as [|y ys]; intros H12 Hne H23 x z Hx Hz;
    [discriminate|].
  apply (name_lt_trans x y z).
  - apply H12; [exact Hx | left; reflexivity].
  - apply H23; [left; reflexivity | exact Hz].
Qed.

Lemma interior_nonempty_tail (R : Listing.t) (Rs : list Listing.t) :
  interior_nonempty (R :: Rs) = true -> interior_nonempty Rs = true.
Proof.
  unfold interior_nonempty. simpl.
  destruct Rs as [|R1 [|R2 Rs]]; try reflexivity.
  cbn [removelast tail forallb]. intros H. apply andb_prop in H. tauto.
Qed.

(** In a sequence of pages whose neighbours honour the cross-page guarantee
    and whose interior pages are not empty, every page is below every later
    page. *)
Lemma adjacent_pages_all_pairs (Rs : list Listing.t) :
  adjacent_pages Rs = true ->
  interior_nonempty Rs = true ->
  ForallOrdPairs (fun R1 R2 => cross_page R1 R2 = true) Rs.
Proof.
  induction Rs as [|R Rs IH]; intros Hadj Hint; [constructor|].
  assert (Hadj' : adjacent_pages Rs = true).
  { destruct Rs as [|R1 Rs]; [reflexivity|].
    simpl in Hadj. apply andb_prop in Hadj. tauto. }
  specialize (IH Hadj' (interior_nonempty_tail _ _ Hint)).
  constructor; [|exact IH].
  destruct Rs as [|R1 Rs]; [constructor|].
  assert (H01 : cross_page R R1 = true).
  { simpl in Hadj. apply andb_prop in Hadj. tauto. }
  constructor; [exact H01|].
  destruct Rs as [|R2 Rs]; [constructor|].
  assert (Hne : page_empty R1 = false).
  { unfold interior_nonempty in Hint. cbn [removelast tail forallb] in Hint.
    apply andb_prop in Hint as [Hint _].
    destruct (page_empty R1); [discriminate | reflexivity]. }
  inversion IH as [|? ? Hhead _]; subst.
  rewrite List.Forall_forall in Hhead |- *.
  intros R' HR'. apply (cross_page_trans R R1 R'); auto.
Qed.

Lemma page_names_objects (R : Listing.t) (o : Object.t) :
  In o (Listing.Objects R) -> In (Object.Name o) (page_names R).
Proof.
  intros H. unfold page_names. apply in_or_app. left. apply in_map. exact H.
Qed.

Lemma page_names_runs (R : Listing.t) (c : string) :
  In c (Listing.CollapsedRuns R) -> In c (page_names R).
Proof.
  intros H. unfold page_names. apply in_or_app. right. exact H.
Qed.

(** Sorted pages, each below every later page, concatenate to strictly
    increasing sequences of objects and of collapsed runs. *)
Lemma pages_concat_increasing (Rs : list Listing.t) :
  Forall (fun R => page_sorted R = true) Rs ->
  ForallOrdPairs (fun R1 R2 => cross_page R1 R2 = true) Rs ->
  increasing object_lt (all_objects Rs) = true
  /\ increasing name_lt (all_runs Rs) = true.
Proof.
  intros Hs Hp. unfold all_objects, all_runs. split.
  - apply increasing_concat.
    + apply List.Forall_map. eapply List.Forall_impl; [|exact Hs].
      intros R HR. unfold page_sorted in HR. apply andb_prop in HR. tauto.
    + clear Hs. induction Hp as [|R Rs Hhead Htail IH]; [constructor|].
      simpl. constructor; [|exact IH].
      apply List.Forall_map. eapply List.Forall_impl; [|exact Hhead].
      intros R' HR' x y Hx Hy. apply name_lt_object_lt.
      rewrite cross_page_spec in HR'.
      apply HR'; apply page_names_objects; assumption.
  - apply increasing_concat.
    + apply List.Forall_map. eapply List.Forall_impl; [|exact Hs].
      intros R HR. unfold page_sorted in HR. apply andb_prop in HR. tauto.
    + clear Hs. induction Hp as [|R Rs Hhead Htail IH]; [constructor|].
      simpl. constructor; [|exact IH].
      apply List.Forall_map. eapply List.Forall_impl; [|exact Hhead].
      intros R' HR' x y Hx Hy.
      rewrite cross_page_spec in HR'.
      apply HR'; apply page_names_runs; assumption.
Qed.

(* ===================================================================== *)
(** * Facts about the facade *)
(* ===================================================================== *)

Section FacadeFacts.
Context {Ctx Client World : Type}.
Implicit Types (storage : Storage Ctx Client World) (b : bucket Client).
Implicit Types (ctx : Ctx) (s : State Ctx Client World).

(** [ListObjects] is the store's reply, with the call recorded. *)
Lemma ListObjects_unfold storage b ctx query s :
  ListObjects storage b ctx query s =
    ((storage_ListObjects storage (cloud_WithContext ctx (projID b) (client b))
        (name b) query (world s)).1,
     {| world := (storage_ListObjects storage
                    (cloud_WithContext ctx (projID b) (client b))
                    (name b) query (world s)).2;
        calls := calls s ++
          [CallListObjects (cloud_WithContext ctx (projID b) (client b))
             (name b) query] |}).
Proof.
  unfold ListObjects.
  destruct (storage_ListObjects _ _ _ _ _) as [r w]. reflexivity.
Qed.

Lemma NewReader_unfold storage b ctx objectName s :
  NewReader storage b ctx objectName s =
    ((storage_NewReader storage (cloud_WithContext ctx (projID b) (client b))
        (name b) objectName (world s)).1,
     {| world := (storage_NewReader storage
                    (cloud_WithContext ctx (projID b) (client b))
                    (name b) objectName (world s)).2;
        calls := calls s ++
          [CallNewReader (cloud_WithContext ctx (projID b) (client b))
             (name b) objectName] |}).
Proof.
  unfold NewReader.
  destruct (storage_NewReader _ _ _ _ _) as [r w]. reflexivity.
Qed.

Lemma ListObjects_returns storage b ctx q s R s' :
  ListObjects storage b ctx (Some q) s = ((Some R, None), s') ->
  returns_page storage (cloud_WithContext ctx (projID b) (client b)) (name b) q R.
Proof.
  rewrite ListObjects_unfold. intros H. injection H as H _.
  exists (world s). eexists. apply injective_projections; [exact H | reflexivity].
Qed.

(** One step of the continuation protocol. *)
Lemma follow_step storage fuel b ctx q s :
  follow storage (S fuel) b ctx q s =
    match ListObjects storage b ctx (Some q) s with
    | ((Some R, None), s') =>
        if decide (Listing.ContinuationToken R = "") then ([R], s')
        else
          ((R :: (follow storage fuel b ctx
                    (continue q (Listing.ContinuationToken R)) s').1),
           (follow storage fuel b ctx
              (continue q (Listing.ContinuationToken R)) s').2)
    | (_, s') => ([], s')
    end.
Proof.
  simpl. destruct (ListObjects storage b ctx (Some q) s) as [[[R|] [e|]] s'];
    try reflexivity.
  destruct (decide _); [reflexivity|].
  destruct (follow storage fuel b ctx _ s') as [Rs s'']. reflexivity.
Qed.

(** The first listing of a continuation sequence is the store's page for the
    request the sequence started from. *)
Lemma follow_head storage fuel b ctx q s R Rs :
  (follow storage fuel b ctx q s).1 = R :: Rs ->
  returns_page storage (cloud_WithContext ctx (projID b) (client b)) (name b) q R.
Proof.
  destruct fuel as [|fuel]; [discriminate|].
  rewrite follow_step.
  destruct (ListObjects storage b ctx (Some q) s) as [[[R'|] [e|]] s'] eqn:E;
    try discriminate.
  destruct (decide _); simpl; intros H; injection H as -> _;
    eapply ListObjects_returns; exact E.
Qed.

(** Against a store that honours the listing contract, every listing of a
    continuation sequence is sorted and neighbours honour the cross-page
    guarantee. *)
Lemma follow_contract storage :
  store_contract storage ->
  forall fuel b ctx q s,
    Forall (fun R => page_sorted R = true) (follow storage fuel b ctx q s).1
    /\ adjacent_pages (follow storage fuel b ctx q s).1 = true.
Proof.
  intros [Hsorted Hcross]. induction fuel as [|fuel IH]; intros b ctx q s.
  { split; [constructor | reflexivity]. }
  rewrite follow_step.
  destruct (ListObjects storage b ctx (Some q) s) as [[[R|] [e|]] s'] eqn:E;
    try (split; [constructor | reflexivity]).
  pose proof (ListObjects_returns _ _ _ _ _ _ _ E) as HR.
  destruct (decide _) as [Htok|Htok]; simpl.
  { split; [|reflexivity]. constructor; [|constructor]. eapply Hsorted, HR. }
  destruct (IH b ctx (continue q (Listing.ContinuationToken R)) s') as [IHs IHa].
  split.
  - constructor; [eapply Hsorted, HR | exact IHs].
  - destruct (follow storage fuel b ctx _ s').1 as [|R2 Rs] eqn:F; [reflexivity|].
    change (cross_page R R2 && adjacent_pages (R2 :: Rs) = true).
    rewrite IHa, andb_true_r.
    eapply Hcross; [exact HR | exact Htok |].
    eapply follow_head. exact F.
Qed.

(** Every listing of a continuation sequence but the last carries a token. *)
Lemma follow_tokens storage fuel b ctx q s :
  Forall (fun R => Listing.ContinuationToken R <> "")
    (removelast (follow storage fuel b ctx q s).1).
Proof.
  revert b ctx q s. induction fuel as [|fuel IH]; intros b ctx q s.
  { constructor. }
  rewrite follow_step.
  destruct (ListObjects storage b ctx (Some q) s) as [[[R|] [e|]] s'];
    try constructor.
  destruct (decide _) as [Htok|Htok]; simpl; [constructor|].
  specialize (IH b ctx (continue q (Listing.ContinuationToken R)) s').
  destruct (follow storage fuel b ctx _ s').1 as [|R2 Rs]; [constructor|].
  constructor; [exact Htok | exact IH].
Qed.

End FacadeFacts.

(** ** Scripted stores *)

Lemma page_for_In (token : string) (script : list (string * Listing.t)) (R : Listing.t) :
  page_for token script = Some R -> In (token, R) script.
Proof.
  induction script as [|[t R'] script IH]; simpl; [discriminate|].
  destruct (decide (t = token)) as [->|_].
  - intros [= ->]. left. reflexivity.
  - intros H. right. exact (IH H).
Qed.

Lemma scripted_returns (script : list (string * Listing.t)) a n q R :
  returns_page (scripted script) a n q R ->
  page_for (ListObjectsRequest.ContinuationToken q) script = Some R.
Proof.
  intros (w & w' & H). simpl in H.
  destruct (page_for _ script) as [R'|]; [|discriminate].
  injection H as ->. reflexivity.
Qed.

(** A script that passes the check is a store that honours the contract. *)
Lemma scripted_contract (script : list (string * Listing.t)) :
  script_honours script = true -> store_contract (scripted script).
Proof.
  unfold script_honours. rewrite forallb_forall. intros H. split.
  - intros a n q R HR. apply scripted_returns, page_for_In in HR.
    apply H in HR. apply andb_prop in HR. tauto.
  - intros a n q R1 R2 H1 Htok H2.
    apply scripted_returns, page_for_In in H1. apply scripted_returns in H2.
    simpl in H2. apply H in H1. apply andb_prop in H1 as [_ H1]. simpl in H1.
    rewrite H2 in H1. rewrite bool_decide_eq_false_2 in H1 by exact Htok.
    exact H1.
Qed.

(* ===================================================================== *)
(** * Listings *)
(* ===================================================================== *)

Section Listings.
Context {Ctx Client World : Type}.
Implicit Types (storage : Storage Ctx Client World) (b : bucket Client).
Implicit Types (ctx : Ctx) (s : State Ctx Client World).

(** C1 (as amended).  [ListObjects] hands on the store's pages as they are.
    Against a store that honours the listing contract (every page strictly
    increasing, every page below the page that continues from it), in every
    continuation sequence neighbouring listings honour the cross-page
    guarantee; and when no page of the sequence other than the first and the
    last is empty, the concatenation of all [Objects] is strictly increasing
    under (name, generation) and the concatenation of all [CollapsedRuns] is
    strictly increasing. *)
Theorem continuation_sequence_increasing storage fuel b ctx q s :
  store_contract storage ->
  adjacent_pages (follow storage fuel b ctx q s).1 = true
  /\ (interior_nonempty (follow storage fuel b ctx q s).1 = true ->
      increasing object_lt (all_objects (follow storage fuel b ctx q s).1) = true
      /\ increasing name_lt (all_runs (follow storage fuel b ctx q s).1) = true).
Proof.
  intros Hc.
  destruct (follow_contract storage Hc fuel b ctx q s) as [Hs Ha].
  split; [exact Ha|]. intros Hint.
  apply pages_concat_increasing; [exact Hs|].
  apply adjacent_pages_all_pairs; assumption.
Qed.

(** C2 (as amended).  [ListObjects] does not sort.  The listing it produces
    from a store page, in order or not, holds the page's entries in the order
    the store returned them; when the store returned them strictly
    increasing, so are [Objects], under (name, generation), and
    [CollapsedRuns]. *)
Theorem ListObjects_keeps_store_order storage b ctx query s P e w' :
  storage_ListObjects storage (cloud_WithContext ctx (projID b) (client b))
    (name b) query (world s) = ((Some P, e), w') ->
  exists R,
    (ListObjects storage b ctx query s).1 = (Some R, e)
    /\ Listing.Objects R = Listing.Objects P
    /\ Listing.CollapsedRuns R = Listing.CollapsedRuns P
    /\ (page_sorted P = true ->
        increasing object_lt (Listing.Objects R) = true
        /\ increasing name_lt (Listing.CollapsedRuns R) = true).
Proof.
  intros Hreply. exists P.
  rewrite ListObjects_unfold, Hreply. simpl.
  split; [reflexivity|]. split; [reflexivity|]. split; [reflexivity|].
  unfold page_sorted. intros Hsorted. apply andb_prop in Hsorted. exact Hsorted.
Qed.

(** C3 (as amended).  [ListObjects] never reorders store entries and raises
    no error of its own: a store page whose entries are out of order comes
    back unchanged, with the error value the store gave, so the result is a
    [CorruptListing] error only when the store itself returned one. *)
Theorem ListObjects_returns_unsorted_page storage b ctx query s P e w' :
  storage_ListObjects storage (cloud_WithContext ctx (projID b) (client b))
    (name b) query (world s) = ((Some P, e), w') ->
  page_sorted P = false ->
  (ListObjects storage b ctx query s).1 = (Some P, e)
  /\ ((ListObjects storage b ctx query s).1.2 = Some CorruptListing
      <-> e = Some CorruptListing).
Proof.
  intros Hreply _. rewrite ListObjects_unfold, Hreply. simpl. tauto.
Qed.

(** C8 (as amended).  The token of a listing returned by [ListObjects] is
    empty exactly when the store's page cursor is empty, and a continuation
    sequence ends at the first listing whose token is empty: every listing
    before the last carries a token. *)
Theorem token_empty_iff_cursor_empty storage b ctx query s R :
  (ListObjects storage b ctx query s).1.1 = Some R ->
  (exists P,
      (storage_ListObjects storage (cloud_WithContext ctx (projID b) (client b))
         (name b) query (world s)).1.1 = Some P
      /\ (Listing.ContinuationToken R = "" <-> Listing.ContinuationToken P = ""))
  /\ forall fuel q,
      Forall (fun R' => Listing.ContinuationToken R' <> "")
        (removelast (follow storage fuel b ctx q s).1).
Proof.
  rewrite ListObjects_unfold. simpl. intros H. split.
  - exists R. split; [exact H | tauto].
  - intros fuel q. apply follow_tokens.
Qed.

(** C9.  The result of [ListObjects] is the store's reply: the token of the
    listing is the store's page cursor, whatever string that is; the request,
    token included, reaches the store as the caller gave it, in one call. *)
Theorem ListObjects_token_verbatim storage b ctx query s :
  (ListObjects storage b ctx query s).1 =
    (storage_ListObjects storage (cloud_WithContext ctx (projID b) (client b))
       (name b) query (world s)).1
  /\ Listing.ContinuationToken <$> (ListObjects storage b ctx query s).1.1 =
     Listing.ContinuationToken <$>
       (storage_ListObjects storage (cloud_WithContext ctx (projID b) (client b))
          (name b) query (world s)).1.1
  /\ calls (ListObjects storage b ctx query s).2 =
     (calls s ++ [CallListObjects (cloud_WithContext ctx (projID b) (client b))
                    (name b) query])%list.
Proof.
  rewrite ListObjects_unfold. simpl. auto.
Qed.

(** C4 (as amended).  The facade validates no name.  For every object name,
    the rejected ones included, [NewReader] makes exactly one call to the
    store, with that name, and returns what the store returns; [NewWriter]
    makes no call to the store and returns a writer for the attributes and a
    nil error. *)
Theorem names_not_validated storage b ctx objectName s :
  (NewReader storage b ctx objectName s).1 =
    (storage_NewReader storage (cloud_WithContext ctx (projID b) (client b))
       (name b) objectName (world s)).1
  /\ calls (NewReader storage b ctx objectName s).2 =
     (calls s ++ [CallNewReader (cloud_WithContext ctx (projID b) (client b))
                    (name b) objectName])%list
  /\ forall a : ObjectAttrs.t,
      NewWriter b ctx (Some a) s =
        (Returned (Some {| wrapped := {| ObjectAttrs := a |} |}, None), s).
Proof.
  rewrite NewReader_unfold. simpl. split; [reflexivity|]. split; reflexivity.
Qed.

(** C10 (as amended).  For every attrs argument that is not nil, an empty
    [Name] included, [NewWriter] returns a writer wrapping those attributes
    and a nil error; it checks nothing, and the record of calls to the store
    and the store itself are as they were. *)
Theorem NewWriter_unvalidated b ctx (a : ObjectAttrs.t) s :
  NewWriter b ctx (Some a) s =
    (Returned (Some {| wrapped := {| ObjectAttrs := a |} |}, None), s).
Proof. reflexivity. Qed.

End Listings.

(** A three-page listing from a store that honours the contract: its middle
    page is not empty, and the sequence is increasing. *)
Lemma continuation_sequence_increasing_witness :
  store_contract (scripted three_page_script)
  /\ length (follow (scripted three_page_script) 5 test_bucket tt
               (list_request "" "/" 3) fresh).1 = 3%nat
  /\ adjacent_pages
       (follow (scripted three_page_script) 5 test_bucket tt
          (list_request "" "/" 3) fresh).1 = true
  /\ interior_nonempty
       (follow (scripted three_page_script) 5 test_bucket tt
          (list_request "" "/" 3) fresh).1 = true
  /\ increasing object_lt
       (all_objects (follow (scripted three_page_script) 5 test_bucket tt
          (list_request "" "/" 3) fresh).1) = true
  /\ increasing name_lt
       (all_runs (follow (scripted three_page_script) 5 test_bucket tt
          (list_request "" "/" 3) fresh).1) = true.
Proof.
  assert (Hc : store_contract (scripted three_page_script)).
  { apply scripted_contract. vm_compute. reflexivity. }
  destruct (continuation_sequence_increasing (scripted three_page_script) 5
              test_bucket tt (list_request "" "/" 3) fresh Hc) as [Ha Hinc].
  split; [exact Hc|]. split; [vm_compute; reflexivity|].
  split; [exact Ha|]. split; [vm_compute; reflexivity|].
  apply Hinc. vm_compute. reflexivity.
Defined.

(** C1, refuted as stated: a store whose neighbouring pages all honour the
    cross-page guarantee, with an empty page in the middle, and a
    continuation sequence whose objects are not increasing. *)
Lemma gap_store_breaks_concatenation :
  store_contract (scripted gap_script)
  /\ map Listing.Objects
       (follow (scripted gap_script) 3 test_bucket tt (list_request "" "" 0) fresh).1
     = [[object_named "b" 1]; []; [object_named "a" 1]]
  /\ adjacent_pages
       (follow (scripted gap_script) 3 test_bucket tt (list_request "" "" 0) fresh).1
     = true
  /\ increasing object_lt
       (all_objects
          (follow (scripted gap_script) 3 test_bucket tt (list_request "" "" 0) fresh).1)
     = false.
Proof.
  split; [apply scripted_contract; vm_compute; reflexivity|].
  repeat split; vm_compute; reflexivity.
Qed.

(** A store page in order comes back in order. *)
Lemma ListObjects_keeps_store_order_witness :
  exists R,
    (ListObjects (scripted example_script) test_bucket tt
       (Some (list_request "a/" "/" 2)) fresh).1 = (Some R, None)
    /\ Listing.Objects R = [object_named "a/x" 1]
    /\ Listing.CollapsedRuns R = ["a/y/"]
    /\ increasing object_lt (Listing.Objects R) = true
    /\ increasing name_lt (Listing.CollapsedRuns R) = true.
Proof.
  destruct (ListObjects_keeps_store_order (scripted example_script) test_bucket tt
              (Some (list_request "a/" "/" 2)) fresh
              (page [object_named "a/x" 1] ["a/y/"] "p2") None tt eq_refl)
    as (R & HR & Ho & Hr & Hs).
  exists R. split; [exact HR|]. split; [exact Ho|]. split; [exact Hr|].
  apply Hs. vm_compute. reflexivity.
Defined.

(** C2, refuted as stated: the store returns b before a and z/ before y/,
    and so does [ListObjects]. *)
Lemma unsorted_page_not_sorted :
  (ListObjects (scripted unsorted_script) test_bucket tt
     (Some (list_request "" "" 0)) fresh).1
  = (Some (page [object_named "b" 1; object_named "a" 1] ["z/"; "y/"] ""), None)
  /\ increasing object_lt [object_named "b" 1; object_named "a" 1] = false
  /\ increasing name_lt ["z/"; "y/"] = false.
Proof. repeat split; vm_compute; reflexivity. Qed.

(** An out-of-order page is returned as the store gave it. *)
Lemma ListObjects_returns_unsorted_page_witness :
  (ListObjects (scripted unsorted_script) test_bucket tt
     (Some (list_request "" "" 0)) fresh).1
  = (Some (page [object_named "b" 1; object_named "a" 1] ["z/"; "y/"] ""), None)
  /\ ((ListObjects (scripted unsorted_script) test_bucket tt
         (Some (list_request "" "" 0)) fresh).1.2 = Some CorruptListing
      <-> @None Error = Some CorruptListing).
Proof.
  apply (ListObjects_returns_unsorted_page (scripted unsorted_script) test_bucket
           tt (Some (list_request "" "" 0)) fresh
           (page [object_named "b" 1; object_named "a" 1] ["z/"; "y/"] "")
           None tt).
  - reflexivity.
  - vm_compute. reflexivity.
Defined.

(** C3, refuted as stated: the page violates the ordering invariant, and
    [ListObjects] returns it with a nil error, not [CorruptListing]. *)
Lemma unsorted_page_no_CorruptListing :
  page_sorted (page [object_named "b" 1; object_named "a" 1] ["z/"; "y/"] "") = false
  /\ (ListObjects (scripted unsorted_script) test_bucket tt
        (Some (list_request "" "" 0)) fresh).1
     = (Some (page [object_named "b" 1; object_named "a" 1] ["z/"; "y/"] ""), None)
  /\ (ListObjects (scripted unsorted_script) test_bucket tt
        (Some (list_request "" "" 0)) fresh).1.2 <> Some CorruptListing.
Proof. repeat split; try (vm_compute; reflexivity). discriminate. Qed.

(** The first page of the spec's example carries the store's cursor. *)
Lemma token_empty_iff_cursor_empty_witness :
  (exists P,
      (storage_ListObjects (scripted example_script)
         (cloud_WithContext tt (projID test_bucket) (client test_bucket))
         (name test_bucket) (Some (list_request "a/" "/" 2)) (world fresh)).1.1
      = Some P
      /\ (Listing.ContinuationToken (page [object_named "a/x" 1] ["a/y/"] "p2") = ""
          <-> Listing.ContinuationToken P = ""))
  /\ forall fuel q,
      Forall (fun R' => Listing.ContinuationToken R' <> "")
        (removelast (follow (scripted example_script) fuel test_bucket tt q fresh).1).
Proof.
  apply (token_empty_iff_cursor_empty (scripted example_script) test_bucket tt
           (Some (list_request "a/" "/" 2)) fresh
           (page [object_named "a/x" 1] ["a/y/"] "p2")).
  reflexivity.
Defined.

(** C8, refuted as stated: the listing carries a token, and the continuation
    from it brings no object and no collapsed run, however far it is
    followed. *)
Lemma token_without_more_results :
  exists R s',
    ListObjects (scripted trailing_script) test_bucket tt
      (Some (list_request "" "" 0)) fresh = ((Some R, None), s')
    /\ Listing.ContinuationToken R <> ""
    /\ forall fuel,
        more_results (scripted trailing_script) fuel test_bucket tt
          (list_request "" "" 0) R s' = false.
Proof.
  eexists _, _. split; [reflexivity|]. split; [discriminate|].
  intros [|fuel]; reflexivity.
Qed.

(** C4, refuted as stated: given the empty name, [NewReader] calls the store
    once and returns the store's error, and [NewWriter] returns a writer and
    a nil error. *)
Lemma empty_name_reaches_store :
  name_rejected "" = true
  /\ (NewReader (scripted example_script) test_bucket tt "" fresh).1
     = (None, Some NotFound)
  /\ calls (NewReader (scripted example_script) test_bucket tt "" fresh).2
     = [CallNewReader (cloud_WithContext tt "proj" tt) "bkt" ""]
  /\ NewWriter test_bucket tt (Some (attrs_named "")) fresh
     = (Returned (Some {| wrapped := {| ObjectAttrs := attrs_named "" |} |}, None),
        fresh).
Proof. repeat split; vm_compute; reflexivity. Qed.

(* ===================================================================== *)
(** * Metadata updates *)
(* ===================================================================== *)

Lemma get_put_field (f g : Field) (v : option string) (o : Object.t) :
  get_field f (put_field g v o) = if decide (g = f) then v else get_field f o.
Proof. destruct f, g; reflexivity. Qed.

(** What one mutation does to a scalar attribute and to a metadata key. *)
Lemma get_field_apply_mutation (f : Field) (o : Object.t) (m : Mutation) :
  get_field f (apply_mutation o m) =
    match field_write f m with
    | Some v => v
    | None => get_field f o
    end.
Proof.
  destruct m as [g v|g|k v|k]; simpl; try (destruct f; reflexivity);
    rewrite get_put_field; destruct (decide (g = f)); reflexivity.
Qed.

Lemma metadata_apply_mutation (k : string) (o : Object.t) (m : Mutation) :
  Object.Metadata (apply_mutation o m) !! k =
    match key_write k m with
    | Some v => v
    | None => Object.Metadata o !! k
    end.
Proof.
  destruct m as [g v|g|j v|j]; simpl; try reflexivity.
  - destruct (decide (j = k)) as [->|Hne].
    + apply lookup_insert_eq.
    + apply lookup_insert_ne. exact Hne.
  - destruct (decide (j = k)) as [->|Hne].
    + apply lookup_delete_eq.
    + apply lookup_delete_ne. exact Hne.
Qed.

Lemma identity_apply_mutation (o : Object.t) (m : Mutation) :
  Object.Name (apply_mutation o m) = Object.Name o
  /\ Object.Generation (apply_mutation o m) = Object.Generation o.
Proof. destruct m; split; reflexivity. Qed.

(** What a mutation list does: each attribute and each key ends at the last
    value written to it, and is as before when nothing wrote to it. *)
Lemma get_field_apply_mutations (f : Field) (ms : list Mutation) (o : Object.t) :
  get_field f (apply_mutations ms o) =
    match last_write (field_write f) ms with
    | Some v => v
    | None => get_field f o
    end.
Proof.
  revert o. induction ms as [|m ms IH]; intros o; [reflexivity|].
  change (apply_mutations (m :: ms) o) with (apply_mutations ms (apply_mutation o m)).
  rewrite IH, get_field_apply_mutation. simpl.
  destruct (last_write (field_write f) ms); reflexivity.
Qed.

Lemma metadata_apply_mutations (k : string) (ms : list Mutation) (o : Object.t) :
  Object.Metadata (apply_mutations ms o) !! k =
    match last_write (key_write k) ms with
    | Some v => v
    | None => Object.Metadata o !! k
    end.
Proof.
  revert o. induction ms as [|m ms IH]; intros o; [reflexivity|].
  change (apply_mutations (m :: ms) o) with (apply_mutations ms (apply_mutation o m)).
  rewrite IH, metadata_apply_mutation. simpl.
  destruct (last_write (key_write k) ms); reflexivity.
Qed.

Lemma identity_apply_mutations (ms : list Mutation) (o : Object.t) :
  Object.Name (apply_mutations ms o) = Object.Name o
  /\ Object.Generation (apply_mutations ms o) = Object.Generation o.
Proof.
  revert o. induction ms as [|m ms IH]; intros o; [split; reflexivity|].
  change (apply_mutations (m :: ms) o) with (apply_mutations ms (apply_mutation o m)).
  destruct (IH (apply_mutation o m)) as [-> ->]. apply identity_apply_mutation.
Qed.

(** Two Object Records with the same identity, the same attributes and the
    same metadata are the same record. *)
Lemma Object_ext (o1 o2 : Object.t) :
  Object.Name o1 = Object.Name o2 ->
  Object.Generation o1 = Object.Generation o2 ->
  (forall f, get_field f o1 = get_field f o2) ->
  (forall k, Object.Metadata o1 !! k = Object.Metadata o2 !! k) ->
  o1 = o2.
Proof.
  intros Hn Hg Hf Hm. apply map_eq in Hm.
  pose proof (Hf FContentType) as H1. pose proof (Hf FContentEncoding) as H2.
  pose proof (Hf FContentLanguage) as H3. pose proof (Hf FCacheControl) as H4.
  destruct o1, o2; simpl in *. congruence.
Qed.

(** Applying any list of set and delete mutations a second time changes
    nothing. *)
Lemma apply_mutations_idempotent (ms : list Mutation) (o : Object.t) :
  apply_mutations ms (apply_mutations ms o) = apply_mutations ms o.
Proof.
  apply Object_ext.
  - destruct (identity_apply_mutations ms (apply_mutations ms o)) as [H _]. exact H.
  - destruct (identity_apply_mutations ms (apply_mutations ms o)) as [_ H]. exact H.
  - intros f. rewrite (get_field_apply_mutations f ms (apply_mutations ms o)).
    destruct (last_write (field_write f) ms) as [v|] eqn:E; [|reflexivity].
    rewrite get_field_apply_mutations, E. reflexivity.
  - intros k. rewrite (metadata_apply_mutations k ms (apply_mutations ms o)).
    destruct (last_write (key_write k) ms) as [v|] eqn:E; [|reflexivity].
    rewrite metadata_apply_mutations, E. reflexivity.
Qed.

(** ** The resolver follows the tri-state rule *)

Lemma last_write_app (w : Mutation -> option (option string)) (l1 l2 : list Mutation) :
  last_write w (l1 ++ l2)%list =
    match last_write w l2 with
    | Some v => Some v
    | None => last_write w l1
    end.
Proof.
  induction l1 as [|m l1 IH]; simpl.
  - destruct (last_write w l2); reflexivity.
  - rewrite IH. destruct (last_write w l2); reflexivity.
Qed.

Lemma key_write_resolve_field (k : string) (f : Field) (v : option string) :
  last_write (key_write k) (resolve_field f v) = None.
Proof. destruct v as [[|c x]|]; reflexivity. Qed.

Lemma field_write_resolve_metadata (f : Field) (m : gmap string (option string)) :
  last_write (field_write f) (resolve_metadata m) = None.
Proof.
  unfold resolve_metadata. induction (map_to_list m) as [|[j [x|]] l IH];
    simpl; try rewrite IH; reflexivity.
Qed.

Lemma field_write_resolve_field (f g : Field) (v : option string) :
  last_write (field_write f) (resolve_field g v) =
    if decide (g = f) then
      match v with
      | None => None
      | Some x => Some (if decide (x = "") then None else Some x)
      end
    else None.
Proof.
  destruct v as [[|c x]|]; simpl; destruct (decide (g = f)); reflexivity.
Qed.

(** The keys of a map are visited once each, so the last write to a key is
    what the map holds for it. *)
Lemma key_write_pairs (k : string) (l : list (string * option string)) :
  NoDup l.*1 ->
  last_write (key_write k) (map resolve_key l) =
    (list_to_map l : gmap string (option string)) !! k.
Proof.
  induction l as [|[j v] l IH]; intros Hnd; [reflexivity|].
  apply NoDup_cons in Hnd as [Hj Hnd]. specialize (IH Hnd). simpl.
  destruct (last_write (key_write k) (map resolve_key l)) as [x|] eqn:E.
  - destruct (decide (j = k)) as [->|Hne].
    + exfalso. apply Hj. symmetry in IH.
      apply elem_of_list_to_map_2 in IH.
      apply list_elem_of_fmap. exists (k, x). split; [reflexivity | exact IH].
    + rewrite lookup_insert_ne by exact Hne. exact IH.
  - destruct (decide (j = k)) as [->|Hne].
    + rewrite lookup_insert_eq.
      destruct v; unfold resolve_key; simpl; rewrite decide_True by reflexivity;
        reflexivity.
    + rewrite lookup_insert_ne by exact Hne. rewrite <- IH.
      destruct v; unfold resolve_key; simpl; rewrite decide_False by exact Hne;
        reflexivity.
Qed.

Lemma key_write_resolve_metadata (k : string) (m : gmap string (option string)) :
  last_write (key_write k) (resolve_metadata m) = m !! k.
Proof.
  unfold resolve_metadata. rewrite key_write_pairs by apply NoDup_fst_map_to_list.
  rewrite list_to_map_to_list. reflexivity.
Qed.

(** Metadata after an accepted update: a key the request does not mention is
    untouched, a key with no value is gone, a key with a value holds it. *)
Lemma update_state_metadata (req : UpdateObjectRequest.t) (o : Object.t) (k : string) :
  UpdateObjectRequest.ContentType req <> Some "" ->
  Object.Metadata (update_state req o) !! k =
    match UpdateObjectRequest.Metadata req !! k with
    | None => Object.Metadata o !! k
    | Some v => v
    end.
Proof.
  intros Hct. unfold update_state, resolve. rewrite decide_False by exact Hct.
  rewrite metadata_apply_mutations, !last_write_app, key_write_resolve_metadata.
  destruct (UpdateObjectRequest.Metadata req !! k); [reflexivity|].
  rewrite !key_write_resolve_field. reflexivity.
Qed.

(** A scalar attribute after an accepted update: untouched when the request
    field is nil, removed when it points to the empty string, set
    otherwise. *)
Lemma update_state_field (req : UpdateObjectRequest.t) (o : Object.t) (f : Field) :
  UpdateObjectRequest.ContentType req <> Some "" ->
  get_field f (update_state req o) =
    match
      match f with
      | FContentType => UpdateObjectRequest.ContentType req
      | FContentEncoding => UpdateObjectRequest.ContentEncoding req
      | FContentLanguage => UpdateObjectRequest.ContentLanguage req
      | FCacheControl => UpdateObjectRequest.CacheControl req
      end
    with
    | None => get_field f o
    | Some x => if decide (x = "") then None else Some x
    end.
Proof.
  intros Hct. unfold update_state, resolve. rewrite decide_False by exact Hct.
  rewrite get_field_apply_mutations, !last_write_app, field_write_resolve_metadata.
  rewrite !field_write_resolve_field.
  destruct f; simpl;
    repeat match goal with
           | |- context [match ?v with Some _ => _ | None => _ end] =>
               is_var v; destruct v
           | |- context [UpdateObjectRequest.ContentType req] =>
               destruct (UpdateObjectRequest.ContentType req)
           | |- context [UpdateObjectRequest.ContentEncoding req] =>
               destruct (UpdateObjectRequest.ContentEncoding req)
           | |- context [UpdateObjectRequest.ContentLanguage req] =>
               destruct (UpdateObjectRequest.ContentLanguage req)
           | |- context [UpdateObjectRequest.CacheControl req] =>
               destruct (UpdateObjectRequest.CacheControl req)
           end; reflexivity.
Qed.

(** C5.  For every [UpdateObjectRequest] and every Object Record, updating
    the record twice with the request leaves it as updating it once does. *)
Theorem update_state_idempotent (req : UpdateObjectRequest.t) (o : Object.t) :
  update_state req (update_state req o) = update_state req o.
Proof.
  unfold update_state. destruct (resolve req) as [e|ms]; [reflexivity|].
  apply apply_mutations_idempotent.
Qed.

(** C6.  A request whose [ContentType] points to the empty string is refused
    with [InvalidUpdate]: the resolver emits no mutation list, and the Object
    Record stays as it was, whatever else the request asks for. *)
Theorem delete_content_type_refused (req : UpdateObjectRequest.t) :
  UpdateObjectRequest.ContentType req = Some "" ->
  resolve req = inl InvalidUpdate
  /\ forall o, update_state req o = o.
Proof.
  intros H. assert (Hr : resolve req = inl InvalidUpdate).
  { unfold resolve. rewrite decide_True by exact H. reflexivity. }
  split; [exact Hr|]. intros o. unfold update_state. rewrite Hr. reflexivity.
Qed.

Lemma delete_content_type_refused_witness :
  resolve delete_content_type = inl InvalidUpdate
  /\ forall o, update_state delete_content_type o = o.
Proof.
  apply (delete_content_type_refused delete_content_type). reflexivity.
Defined.

(* ===================================================================== *)
(** * Conditional writes *)
(* ===================================================================== *)

(** C7.  A create request with a generation precondition of zero, against a
    bucket that holds an object of that name, fails with
    [PreconditionFailed]; the bucket is as it was, and the error is none of
    the other ways a write fails. *)
Theorem create_over_existing_fails (req : CreateObjectRequest.t) (s : WriteState)
    (o : Object.t) :
  bucket_wf (remote s) ->
  CreateObjectRequest.GenerationPrecondition req = Some 0 ->
  contents (remote s) !! CreateObjectRequest.Name req = Some o ->
  (CreateObject req s).1 = inl PreconditionFailed
  /\ remote (CreateObject req s).2 = remote s
  /\ Forall (fun e => e <> PreconditionFailed) other_write_failures.
Proof.
  intros Hwf Hp Ho. unfold CreateObject, RemoteWrite.
  rewrite (Hwf _ _ Ho), Hp, Ho. simpl.
  split; [reflexivity|]. split; [reflexivity|].
  unfold other_write_failures. repeat constructor; discriminate.
Qed.

Lemma bucket_with_a_wf : bucket_wf (remote bucket_with_a).
Proof.
  intros k o H. simpl in H. apply lookup_singleton_Some in H as [<- _].
  vm_compute. reflexivity.
Qed.

Lemma create_over_existing_fails_witness :
  (CreateObject (create_request "a" (Some 0)) bucket_with_a).1
    = inl PreconditionFailed
  /\ remote (CreateObject (create_request "a" (Some 0)) bucket_with_a).2
     = remote bucket_with_a
  /\ Forall (fun e => e <> PreconditionFailed) other_write_failures.
Proof.
  apply (create_over_existing_fails (create_request "a" (Some 0)) bucket_with_a
           (object_named "a" 7)).
  - exact bucket_with_a_wf.
  - reflexivity.
  - vm_compute. reflexivity.
Defined.

(* ===================================================================== *)
(** * Worked examples *)
(* ===================================================================== *)

(** An update that sets the encoding, removes the cache control, sets one
    metadata key and deletes another leaves everything else alone. *)
Example update_state_example :
  update_state
    {| UpdateObjectRequest.Name := "a";
       UpdateObjectRequest.ContentType := None;
       UpdateObjectRequest.ContentEncoding := Some "gzip";
       UpdateObjectRequest.ContentLanguage := None;
       UpdateObjectRequest.CacheControl := Some "";
       UpdateObjectRequest.Metadata := {[ "k" := Some "v"; "old" := None ]} |}
    {| Object.Name := "a";
       Object.Generation := 7;
       Object.ContentType := Some "text/plain";
       Object.ContentLanguage := Some "fr";
       Object.ContentEncoding := None;
       Object.CacheControl := Some "no-cache";
       Object.Metadata := {[ "old" := "1"; "keep" := "2" ]} |}
  = {| Object.Name := "a";
       Object.Generation := 7;
       Object.ContentType := Some "text/plain";
       Object.ContentLanguage := Some "fr";
       Object.ContentEncoding := Some "gzip";
       Object.CacheControl := None;
       Object.Metadata := {[ "k" := "v"; "keep" := "2" ]} |}.
Proof. vm_compute. reflexivity. Qed.

(** A request that touches nothing resolves to no mutation. *)
Example resolve_no_update (n : string) : resolve (no_update n) = inr [].
Proof. reflexivity. Qed.

(** With a precondition of zero a create succeeds when the name is free, and
    a rejected name never reaches the store. *)
Example create_free_name :
  (CreateObject (create_request "b" (Some 0)) bucket_with_a).1
  = inr (created_object (create_request "b" (Some 0)) 8).
Proof. vm_compute. reflexivity. Qed.

Example create_empty_name :
  CreateObject (create_request "" (Some 0)) bucket_with_a
  = (inl InvalidArgument, bucket_with_a).
Proof. vm_compute. reflexivity. Qed.

(** C10, refuted as stated: a nil [attrs] makes [NewWriter] panic at the
    dereference, so no writer and no error value come back. *)
Example NewWriter_nil_attrs :
  NewWriter test_bucket tt None fresh = (Panicked, fresh)
  /\ ~ (exists w e, (NewWriter test_bucket tt None fresh).1 = Returned (w, e)).
Proof. split; [reflexivity|]. intros (w & e & H). discriminate. Qed.

(** The spec's example across two continued pages: objects a/x and a/z,
    collapsed run a/y/. *)
Example follow_example :
  map Object.Name
    (all_objects (follow (scripted example_script) 5 test_bucket tt
                    (list_request "a/" "/" 2) fresh).1) = ["a/x"; "a/z"]
  /\ all_runs (follow (scripted example_script) 5 test_bucket tt
                 (list_request "a/" "/" 2) fresh).1 = ["a/y/"].
Proof. split; vm_compute; reflexivity. Qed.

(* ===================================================================== *)
(** * The order on Object Records *)
(* ===================================================================== *)

Lemma compare_same (a : string) : String.compare a a = Eq.
Proof. apply OrderedTypeEx.String_as_OT.cmp_eq. reflexivity. Qed.

Lemma name_lt_irrefl (a : string) : name_lt a a = false.
Proof. unfold name_lt, String.ltb. rewrite compare_same. reflexivity. Qed.

(** [object_lt] compares names first and generations on a tie. *)
Lemma object_lt_spec (a b : Object.t) :
  object_lt a b = true <->
  name_lt (Object.Name a) (Object.Name b) = true
  \/ (Object.Name a = Object.Name b
      /\ (Object.Generation a < Object.Generation b)%Z).
Proof.
  unfold object_lt, name_lt, String.ltb.
  destruct (String.compare (Object.Name a) (Object.Name b)) eqn:E.
  - apply String.compare_eq_iff in E. rewrite Z.ltb_lt. split.
    + intros H. right. split; assumption.
    + intros [H|[_ H]]; [discriminate | exact H].
  - split; [intros _; left; reflexivity | reflexivity].
  - split; [discriminate|]. intros [H|[H _]]; [discriminate|].
    rewrite H, compare_same in E. discriminate.
Qed.

Lemma object_lt_irrefl (a : Object.t) : object_lt a a = false.
Proof.
  unfold object_lt. rewrite compare_same. apply Z.ltb_irrefl.
Qed.

Lemma object_lt_trans (a b c : Object.t) :
  object_lt a b = true -> object_lt b c = true -> object_lt a c = true.
Proof.
  rewrite !object_lt_spec. intros [Hab|[Hab Hg]] [Hbc|[Hbc Hg']].
  - left. exact (name_lt_trans _ _ _ Hab Hbc).
  - left. rewrite <- Hbc. exact Hab.
  - left. rewrite Hab. exact Hbc.
  - right. split; [congruence | lia].
Qed.

(** X4.  The comparison on (name, generation) pairs is a strict total order
    on identities: no record is below itself, the comparison is transitive
    and asymmetric, and two records neither of which is below the other have
    the same name and the same generation. *)
Theorem object_lt_strict_total_order :
  (forall a, object_lt a a = false)
  /\ (forall a b c, object_lt a b = true -> object_lt b c = true ->
        object_lt a c = true)
  /\ (forall a b, object_lt a b = true -> object_lt b a = false)
  /\ (forall a b, object_lt a b = false -> object_lt b a = false ->
        identity a = identity b).
Proof.
  split; [exact object_lt_irrefl|]. split; [exact object_lt_trans|]. split.
  - intros a b Hab. destruct (object_lt b a) eqn:Hba; [|reflexivity].
    pose proof (object_lt_trans _ _ _ Hab Hba) as H.
    rewrite object_lt_irrefl in H. discriminate.
  - intros a b. unfold object_lt, identity.
    rewrite (String.compare_antisym (Object.Name b) (Object.Name a)).
    destruct (String.compare (Object.Name a) (Object.Name b)) eqn:E;
      simpl; intros H1 H2; try discriminate.
    apply String.compare_eq_iff in E. apply Z.ltb_ge in H1, H2.
    f_equal; [exact E | lia].
Qed.

(** In an increasing sequence every element is below every later one. *)
Lemma increasing_all_pairs {A : Type} (lt : A -> A -> bool) (l : list A) :
  (forall x y z, lt x y = true -> lt y z = true -> lt x z = true) ->
  increasing lt l = true ->
  ForallOrdPairs (fun x y => lt x y = true) l.
Proof.
  intros Htrans. induction l as [|x l IH]; intros Hinc; [constructor|].
  specialize (IH (increasing_cons lt x l Hinc)).
  constructor; [|exact IH].
  destruct l as [|y l]; [constructor|].
  simpl in Hinc. apply andb_prop in Hinc as [Hxy _].
  constructor; [exact Hxy|].
  inversion IH as [|? ? Hy _]; subst.
  eapply List.Forall_impl; [|exact Hy].
  intros z Hyz. exact (Htrans x y z Hxy Hyz).
Qed.

(** Elements ordered pairwise by a relation that separates keys have
    distinct keys. *)
Lemma all_pairs_NoDup {A B : Type} (key : A -> B) (lt : A -> A -> bool) (l : list A) :
  (forall x y, lt x y = true -> key x <> key y) ->
  ForallOrdPairs (fun x y => lt x y = true) l ->
  NoDup (map key l).
Proof.
  intros Hsep. induction 1 as [|x l Hx _ IH]; simpl; constructor; [|exact IH].
  rewrite list_elem_of_In, in_map_iff. intros (y & Hkey & Hy).
  rewrite List.Forall_forall in Hx. exact (Hsep x y (Hx y Hy) (eq_sym Hkey)).
Qed.

Lemma object_lt_identity (a b : Object.t) :
  object_lt a b = true -> identity a <> identity b.
Proof.
  intros Hlt Heq. unfold identity in Heq. injection Heq as Hn Hg.
  apply object_lt_spec in Hlt as [Hlt|[_ Hlt]]; [|lia].
  rewrite Hn, name_lt_irrefl in Hlt. discriminate.
Qed.

Lemma name_lt_distinct (a b : string) : name_lt a b = true -> a <> b.
Proof. intros Hlt ->. rewrite name_lt_irrefl in Hlt. discriminate. Qed.

Lemma increasing_objects_NoDup (l : list Object.t) :
  increasing object_lt l = true -> NoDup (map identity l).
Proof.
  intros H. apply (all_pairs_NoDup identity object_lt); [exact object_lt_identity|].
  apply increasing_all_pairs; [exact object_lt_trans | exact H].
Qed.

Lemma increasing_names_NoDup (l : list string) :
  increasing name_lt l = true -> NoDup l.
Proof.
  intros H. rewrite <- (map_id l).
  apply (all_pairs_NoDup id name_lt); [exact name_lt_distinct|].
  apply increasing_all_pairs; [exact name_lt_trans | exact H].
Qed.

(** X5.  In a listing whose [Objects] and [CollapsedRuns] are strictly
    increasing, every record is below every later record and every run below
    every later run, so no (name, generation) pair and no collapsed run
    occurs twice. *)
Theorem sorted_page_no_duplicates (R : Listing.t) :
  page_sorted R = true ->
  ForallOrdPairs (fun a b => object_lt a b = true) (Listing.Objects R)
  /\ NoDup (map identity (Listing.Objects R))
  /\ ForallOrdPairs (fun a b => name_lt a b = true) (Listing.CollapsedRuns R)
  /\ NoDup (Listing.CollapsedRuns R).
Proof.
  unfold page_sorted. intros H. apply andb_prop in H as [Ho Hr].
  split; [apply increasing_all_pairs; [exact object_lt_trans | exact Ho]|].
  split; [apply increasing_objects_NoDup; exact Ho|].
  split; [apply increasing_all_pairs; [exact name_lt_trans | exact Hr]|].
  apply increasing_names_NoDup. exact Hr.
Qed.

Lemma sorted_page_no_duplicates_witness :
  ForallOrdPairs (fun a b => object_lt a b = true)
    (Listing.Objects (page [object_named "a/x" 1; object_named "a/x" 2;
                            object_named "a/z" 1] ["a/y/"] ""))
  /\ NoDup (map identity
       (Listing.Objects (page [object_named "a/x" 1; object_named "a/x" 2;
                               object_named "a/z" 1] ["a/y/"] "")))
  /\ ForallOrdPairs (fun a b => name_lt a b = true)
       (Listing.CollapsedRuns (page [object_named "a/x" 1; object_named "a/x" 2;
                                     object_named "a/z" 1] ["a/y/"] ""))
  /\ NoDup (Listing.CollapsedRuns
       (page [object_named "a/x" 1; object_named "a/x" 2;
              object_named "a/z" 1] ["a/y/"] "")).
Proof.
  apply (sorted_page_no_duplicates
           (page [object_named "a/x" 1; object_named "a/x" 2;
                  object_named "a/z" 1] ["a/y/"] "")).
  vm_compute. reflexivity.
Defined.

(* ===================================================================== *)
(** * Programs over the facade *)
(* ===================================================================== *)

Section ProgramFacts.
Context {Ctx Client World : Type}.
Implicit Types (storage : Storage Ctx Client World) (b : bucket Client).
Implicit Types (s : State Ctx Client World) (ops : list (Op Ctx)).


(** The requests a continuation sequence sends. *)
Lemma continue_same (q : ListObjectsRequest.t) :
  continue q (ListObjectsRequest.ContinuationToken q) = q.
Proof. destruct q. reflexivity. Qed.

Lemma ends_on_final_cons (R : Listing.t) (Rs : list Listing.t) :
  Listing.ContinuationToken R <> "" ->
  ends_on_final (R :: Rs) = ends_on_final Rs.
Proof.
  intros Htok. unfold ends_on_final. destruct Rs as [|R' Rs].
  - simpl. apply bool_decide_eq_false_2. exact Htok.
  - reflexivity.
Qed.

Lemma requests_sent_none (fuel : nat) : requests_sent (S fuel) [] = 1%nat.
Proof. destruct fuel; reflexivity. Qed.

Lemma requests_sent_final (fuel : nat) (R : Listing.t) :
  Listing.ContinuationToken R = "" -> requests_sent (S fuel) [R] = 1%nat.
Proof.
  intros Htok. unfold requests_sent, ends_on_final. simpl.
  rewrite bool_decide_eq_true_2 by exact Htok. destruct fuel; reflexivity.
Qed.

Lemma requests_sent_more (fuel : nat) (R : Listing.t) (Rs : list Listing.t) :
  Listing.ContinuationToken R <> "" ->
  requests_sent (S fuel) (R :: Rs) = S (requests_sent fuel Rs).
Proof.
  intros Htok. unfold requests_sent. rewrite (ends_on_final_cons R Rs Htok).
  reflexivity.
Qed.


(** X6.  Against a store that honours the listing contract, a continuation
    sequence none of whose interior pages is empty lists no (name,
    generation) pair twice and no collapsed run twice, on one page or across
    pages. *)
Theorem continuation_sequence_no_duplicates storage fuel b ctx q s :
  store_contract storage ->
  interior_nonempty (follow storage fuel b ctx q s).1 = true ->
  NoDup (map identity (all_objects (follow storage fuel b ctx q s).1))
  /\ NoDup (all_runs (follow storage fuel b ctx q s).1).
Proof.
  intros Hc Hint.
  destruct (follow_contract storage Hc fuel b ctx q s) as [Hs Ha].
  destruct (pages_concat_increasing _ Hs (adjacent_pages_all_pairs _ Ha Hint))
    as [Ho Hr].
  split; [apply increasing_objects_NoDup; exact Ho|].
  apply increasing_names_NoDup. exact Hr.
Qed.

End ProgramFacts.


Lemma continuation_sequence_no_duplicates_witness :
  NoDup (map identity
           (all_objects (follow (scripted example_script) 5 test_bucket tt
                           (list_request "a/" "/" 2) fresh).1))
  /\ NoDup (all_runs (follow (scripted example_script) 5 test_bucket tt
                        (list_request "a/" "/" 2) fresh).1).
Proof.
  apply (continuation_sequence_no_duplicates (scripted example_script) 5
           test_bucket tt (list_request "a/" "/" 2) fresh).
  - apply scripted_contract. vm_compute. reflexivity.
  - vm_compute. reflexivity.
Defined.

(* ===================================================================== *)
(** * The documented update rules *)
(* ===================================================================== *)

Lemma update_state_request_field (req : UpdateObjectRequest.t) (o : Object.t) (f : Field) :
  UpdateObjectRequest.ContentType req <> Some "" ->
  get_field f (update_state req o) =
    match request_field f req with
    | None => get_field f o
    | Some x => if decide (x = "") then None else Some x
    end.
Proof. exact (update_state_field req o f). Qed.

(** X8.  For an update that does not ask for the content type to be removed,
    each scalar attribute follows the rule documented on
    [UpdateObjectRequest]: a nil field leaves the attribute untouched, a
    pointer to the empty string removes it, any other value sets it. *)
Theorem update_attribute_rule (req : UpdateObjectRequest.t) (o : Object.t) (f : Field) :
  UpdateObjectRequest.ContentType req <> Some "" ->
  (request_field f req = None ->
     get_field f (update_state req o) = get_field f o)
  /\ (request_field f req = Some "" ->
        get_field f (update_state req o) = None)
  /\ (forall x, request_field f req = Some x -> x <> "" ->
        get_field f (update_state req o) = Some x).
Proof.
  intros Hct. rewrite (update_state_request_field req o f Hct).
  destruct (request_field f req) as [y|].
  - split; [discriminate|]. split.
    + intros [= ->]. reflexivity.
    + intros x [= ->] Hx. rewrite decide_False by exact Hx. reflexivity.
  - split; [reflexivity|]. split; discriminate.
Qed.

(** X9.  For an update that does not ask for the content type to be removed,
    user metadata follows the documented rule: a key the request does not
    mention is untouched, a key whose value is nil is deleted, and any other
    key holds the supplied string. *)
Theorem update_metadata_rule (req : UpdateObjectRequest.t) (o : Object.t) (k : string) :
  UpdateObjectRequest.ContentType req <> Some "" ->
  (UpdateObjectRequest.Metadata req !! k = None ->
     Object.Metadata (update_state req o) !! k = Object.Metadata o !! k)
  /\ (UpdateObjectRequest.Metadata req !! k = Some None ->
        Object.Metadata (update_state req o) !! k = None)
  /\ (forall v, UpdateObjectRequest.Metadata req !! k = Some (Some v) ->
        Object.Metadata (update_state req o) !! k = Some v).
Proof.
  intros Hct. unfold update_state, resolve. rewrite decide_False by exact Hct.
  rewrite metadata_apply_mutations, !last_write_app, key_write_resolve_metadata.
  destruct (UpdateObjectRequest.Metadata req !! k) as [[v|]|].
  - split; [discriminate|]. split; [discriminate|]. intros v' [= ->]. reflexivity.
  - split; [discriminate|]. split; [reflexivity|]. discriminate.
  - rewrite !key_write_resolve_field. split; [reflexivity|].
    split; discriminate.
Qed.

Lemma field_write_never_empty (f g : Field) (v : option string) :
  last_write (field_write f) (resolve_field g v) <> Some (Some "").
Proof.
  rewrite field_write_resolve_field.
  destruct (decide (g = f)); [|discriminate].
  destruct v as [x|]; [|discriminate].
  destruct (decide (x = "")) as [->|Hx]; [discriminate|].
  intros [= ->]. apply Hx. reflexivity.
Qed.

(** X10.  There is no way to set a scalar attribute to the empty string: an
    attribute that holds the empty string after an update held it before and
    was left untouched. *)
Theorem update_never_sets_empty (req : UpdateObjectRequest.t) (o : Object.t) (f : Field) :
  get_field f (update_state req o) = Some "" ->
  get_field f o = Some "".
Proof.
  unfold update_state, resolve.
  destruct (decide (UpdateObjectRequest.ContentType req = Some "")); [tauto|].
  rewrite get_field_apply_mutations, !last_write_app, field_write_resolve_metadata.
  pose proof (field_write_never_empty f FContentType
                (UpdateObjectRequest.ContentType req)) as H1.
  pose proof (field_write_never_empty f FContentEncoding
                (UpdateObjectRequest.ContentEncoding req)) as H2.
  pose proof (field_write_never_empty f FContentLanguage
                (UpdateObjectRequest.ContentLanguage req)) as H3.
  pose proof (field_write_never_empty f FCacheControl
                (UpdateObjectRequest.CacheControl req)) as H4.
  destruct (last_write (field_write f) (resolve_field FCacheControl _)) as [v4|];
    [intros ->; congruence|].
  destruct (last_write (field_write f) (resolve_field FContentLanguage _)) as [v3|];
    [intros ->; congruence|].
  destruct (last_write (field_write f) (resolve_field FContentEncoding _)) as [v2|];
    [intros ->; congruence|].
  destruct (last_write (field_write f) (resolve_field FContentType _)) as [v1|];
    [intros ->; congruence|].
  tauto.
Qed.

Lemma update_attribute_rule_witness :
  (request_field FCacheControl mixed_update = None ->
     get_field FCacheControl (update_state mixed_update stored_a)
     = get_field FCacheControl stored_a)
  /\ (request_field FCacheControl mixed_update = Some "" ->
        get_field FCacheControl (update_state mixed_update stored_a) = None)
  /\ (forall x, request_field FCacheControl mixed_update = Some x -> x <> "" ->
        get_field FCacheControl (update_state mixed_update stored_a) = Some x).
Proof.
  apply (update_attribute_rule mixed_update stored_a FCacheControl). discriminate.
Defined.

Lemma update_metadata_rule_witness :
  (UpdateObjectRequest.Metadata mixed_update !! "old" = None ->
     Object.Metadata (update_state mixed_update stored_a) !! "old"
     = Object.Metadata stored_a !! "old")
  /\ (UpdateObjectRequest.Metadata mixed_update !! "old" = Some None ->
        Object.Metadata (update_state mixed_update stored_a) !! "old" = None)
  /\ (forall v, UpdateObjectRequest.Metadata mixed_update !! "old" = Some (Some v) ->
        Object.Metadata (update_state mixed_update stored_a) !! "old" = Some v).
Proof.
  apply (update_metadata_rule mixed_update stored_a "old"). discriminate.
Defined.

Lemma update_never_sets_empty_witness :
  get_field FContentLanguage
    (put_field FContentLanguage (Some "") stored_a) = Some "".
Proof.
  apply (update_never_sets_empty (no_update "a")
           (put_field FContentLanguage (Some "") stored_a) FContentLanguage).
  reflexivity.
Defined.
